(** * men.gov announcement monitor: a shallow embedding of [men.gov.py]

    The program polls a JSON feed of announcements, compares the feed with
    the identifier it saw last, notifies two sinks (desktop popup, Telegram
    bot) about the entries that are new, and remembers the newest identifier
    in a one-line state file.

    Modelling conventions.
    - A Python [str] is a list of Unicode code points ([N]).
    - A feed entry is the JSON object the code indexes, kept as a record
      whose optional keys are [option] fields.  The model covers feeds that
      have the documented shape: a list of objects, each with an ["id"] that
      is a JSON string or a JSON integer, and text fields that are strings
      when present.
    - Effects are explicit: a computation takes the state file and returns
      its result (a value or a raised exception), the events it emitted and
      the state file it leaves.  Time stamps in log lines are left out.
    - The state file is its decoded text.  Writing text that UTF-8 cannot
      encode (a lone surrogate, which the JSON decoder delivers from an
      escape such as [\ud800]) raises and leaves the file empty; storage
      failures of the operating system are outside the model. *)

From Stdlib Require Import ZArith NArith Ascii String DecimalString.
From stdpp Require Import base tactics option list.

Set Default Proof Using "Type".
Local Open Scope N_scope.

(** ** Text *)

(** A character is its code point, a string the list of its characters. *)
Abbreviation char := N (only parsing).
Abbreviation str := (list N) (only parsing).

Module Text.

(** A literal of the source: every character of the literals used below
    is ASCII, so its code point is its byte. *)
Definition py (s : string) : str := N_of_ascii <$> list_ascii_of_string s.

(** [str(n)] for an [int]. *)
Definition str_of_int (z : Z) : str := py (NilZero.string_of_int (Z.to_int z)).

(** [str.replace(old, new)] for a pattern [old] of one character, as in
    the three calls of [format_telegram_text_html]. *)
Fixpoint replace (old : char) (new : str) (text : str) : str :=
  match text with
  | [] => []
  | c :: rest =>
      (if N.eqb c old then new else [c]) ++ replace old new rest
  end.

Definition amp : char := 38.
Definition lt : char := 60.
Definition gt : char := 62.

(** [str.isspace] on one character, the test [str.strip()] applies. *)
Definition is_space (c : char) : bool :=
  ((9 <=? c) && (c <=? 13)) || ((28 <=? c) && (c <=? 32))
  || (c =? 133) || (c =? 160) || (c =? 5760)
  || ((8192 <=? c) && (c <=? 8202))
  || (c =? 8232) || (c =? 8233) || (c =? 8239) || (c =? 8287)
  || (c =? 12288).

Fixpoint lstrip (s : str) : str :=
  match s with
  | c :: rest => if is_space c then lstrip rest else s
  | [] => []
  end.

Definition rstrip (s : str) : str := reverse (lstrip (reverse s)).

Definition strip (s : str) : str := rstrip (lstrip s).

(** Reading a file in text mode with [newline=None]: the line ends
    [\r\n] and [\r] come back as [\n]. *)
Fixpoint universal_newlines (s : str) : str :=
  match s with
  | [] => []
  | c :: rest =>
      if c =? 13 then
        match rest with
        | c' :: rest' =>
            if c' =? 10 then 10 :: universal_newlines rest'
            else 10 :: universal_newlines rest
        | [] => [10]
        end
      else c :: universal_newlines rest
  end.

(** What the UTF-8 codec encodes: a code point that is not a surrogate
    (D800 to DFFF) and not beyond 10FFFF. *)
Definition encodable (c : char) : bool :=
  (c <? 55296) || ((57343 <? c) && (c <=? 1114111)).

Definition is_text (s : str) : bool := forallb encodable s.

End Text.

Import Text.

(** ** Escaping for the Telegram HTML mode *)

Definition format_telegram_text_html (text : str) : str :=
  let text := replace amp (py "&amp;") text in
  let text := replace lt (py "&lt;") text in
  let text := replace gt (py "&gt;") text in
  text.

(** ** Data model: the feed *)

(** An identifier as the JSON decoder delivers it: a string or an integer.
    Python's [==] between a [str] and an [int] is [False]. *)
Inductive Ident :=
  | IStr (s : str)
  | IInt (n : Z).

Global Instance Ident_eq_dec : EqDecision Ident.
Proof. solve_decision. Defined.

(** [str(last_id)], also what an f-string prints for an identifier. *)
Definition str_of (i : Ident) : str :=
  match i with
  | IStr s => s
  | IInt n => str_of_int n
  end.

(** One object of an entry's ["pdf"] array. *)
Record Pdf := {
  url : option str;
  label_fr : option str
}.

(** One entry of the feed; ["id"] is the only key the code requires. *)
Record Announcement := {
  id : Ident;
  date : option str;
  title_fr : option str;
  title_ar : option str;
  description_fr : option str;
  description_ar : option str;
  pdf : option (list Pdf)
}.

(** ** Effects *)

Inductive request_error := ConnectionError | Timeout | HTTPError.

Inductive exn :=
  | RequestException (r : request_error)
  | JSONDecodeError
  | KeyError (key : str)
  | IndexError
  | StopIteration
  | FileNotFoundError
  | UnicodeEncodeError.

(** The lines the program prints, one constructor per [print] call. *)
Inductive line :=
  | LError (e : exn)
  | LNoResults
  | LInit (latest_id : Ident)
  | LNoNew
  | LStale (last_seen_id : Ident)
  | LNoNewIndex
  | LUpdated (last_seen_id latest_id : Ident)
  | LBannerTop
  | LFound (n : nat)
  | LBannerBottom
  | LRule
  | LId (i : Ident)
  | LDate (d : str)
  | LTitleFr (t : str)
  | LTitleAr (t : str)
  | LSummaryFr (t : str)
  | LSummaryAr (t : str)
  | LPdfHeader
  | LPdf (label link : str)
  | LRuleEnd
  | LNotifySendError (e : exn)
  | LTelegramMissing
  | LTelegramSent
  | LTelegramFailed (e : exn).

Inductive event :=
  | Stdout (l : line)
  | Stderr (l : line)
  | NotifySend (title message : str)
  | TelegramPost (bot_token chat_id text : str)
  | WriteState (text : str).

Inductive res (A : Type) :=
  | Val (a : A)
  | Exc (e : exn).
Arguments Val {A} a.
Arguments Exc {A} e.

#[projections(primitive)]
Record outcome (A : Type) := Outcome {
  result : res A;
  trace : list event;
  file : option str
}.
Arguments Outcome {A} result trace file.
Arguments result {A} o.
Arguments trace {A} o.
Arguments file {A} o.

(** A computation reads the state file ([None]: it does not exist) and
    returns an outcome. *)
Definition M (A : Type) : Type := option str → outcome A.

Global Instance M_ret : MRet M := λ A a f, Outcome (Val a) [] f.

Global Instance M_bind : MBind M := λ A B k m f,
  let o := m f in
  match result o with
  | Val a => let o' := k a (file o) in
             Outcome (result o') (trace o ++ trace o') (file o')
  | Exc e => Outcome (Exc e) (trace o) (file o)
  end.

Definition raise {A} (e : exn) : M A := λ f, Outcome (Exc e) [] f.

Definition emit (e : event) : M unit := λ f, Outcome (Val tt) [e] f.

(** [try: body / except cls: handler]; the code after the statement is the
    continuation of the whole. *)
Definition try_except {A} (cls : exn → bool) (body : M A) (handler : exn → M A)
  : M A := λ f,
  let o := body f in
  match result o with
  | Val _ => o
  | Exc e =>
      if cls e then
        let o' := handler e (file o) in
        Outcome (result o') (trace o ++ trace o') (file o')
      else o
  end.

(** [try: x = body / except cls as e: return handler e], followed by the
    rest of the function, which uses [x]. *)
Definition try_except_else {A B} (cls : exn → bool) (body : M A)
    (handler : exn → M B) (rest : A → M B) : M B := λ f,
  let o := body f in
  match result o with
  | Val a =>
      let o' := rest a (file o) in
      Outcome (result o') (trace o ++ trace o') (file o')
  | Exc e =>
      if cls e then
        let o' := handler e (file o) in
        Outcome (result o') (trace o ++ trace o') (file o')
      else Outcome (Exc e) (trace o) (file o)
  end.

(** [for x in xs: body x] *)
Fixpoint for_ {A} (xs : list A) (body : A → M unit) : M unit :=
  match xs with
  | [] => mret tt
  | x :: rest => body x ;; for_ rest body
  end.

Definition Exception (e : exn) : bool := true.

Definition is_RequestException (e : exn) : bool :=
  match e with RequestException _ => true | _ => false end.

Definition is_StopIteration (e : exn) : bool :=
  match e with StopIteration => true | _ => false end.

(** What the surroundings of one cycle provide: the answer of the feed
    endpoint, the Telegram configuration and whether the two sinks fail. *)
Record Env := {
  fetch_response : exn + list Announcement;
  TELEGRAM_BOT_TOKEN : str;
  TELEGRAM_CHAT_ID : str;
  notify_send_error : option exn;
  post_error : option request_error
}.

(** ** The state store *)

Definition STATE_FILE_exists : M bool := λ f,
  Outcome (Val (bool_decide (is_Some f))) [] f.

Definition STATE_FILE_read_text : M str := λ f,
  match f with
  | Some content => Outcome (Val (universal_newlines content)) [] f
  | None => Outcome (Exc FileNotFoundError) [] f
  end.

(** [STATE_FILE.write_text(data, encoding="utf-8")]: the file is opened
    for writing, which empties it, and the text is encoded and written.
    When the codec cannot encode the text it raises before anything is
    written and the file stays empty.  The event records the call. *)
Definition STATE_FILE_write_text (data : str) : M unit := λ f,
  if is_text data then Outcome (Val tt) [WriteState data] (Some data)
  else Outcome (Exc UnicodeEncodeError) [WriteState data] (Some []).

Definition load_last_id : M (option str) :=
  e ← STATE_FILE_exists;
  if negb e then mret None
  else
    text ← STATE_FILE_read_text;
    mret (match strip text with [] => None | s => Some s end).

Definition save_last_id (last_id : Ident) : M unit :=
  STATE_FILE_write_text (str_of last_id).

(** ** The fetcher *)

Definition fetch_announcements (env : Env) : M (list Announcement) :=
  match fetch_response env with
  | inl e => raise e
  | inr announcements => mret announcements
  end.

Definition get_latest_id (announcements : list Announcement) : option Ident :=
  match announcements with
  | [] => None
  | a :: _ => Some (id a)
  end.

(** ** The notifier *)

Definition nl : str := [10].

(** [subprocess.run(["notify-send", title, message])] *)
Definition subprocess_run_notify_send (env : Env) (title message : str) : M unit :=
  emit (NotifySend title message) ;;
  match notify_send_error env with
  | Some e => raise e
  | None => mret tt
  end.

Definition send_desktop_notification (env : Env) (title message : str) : M unit :=
  try_except Exception
    (subprocess_run_notify_send env title message)
    (λ e, emit (Stderr (LNotifySendError e))).

(** [requests.post(url, json=payload, timeout=5)] followed by
    [response.raise_for_status()] *)
Definition requests_post (env : Env) (message : str) : M unit :=
  emit (TelegramPost (TELEGRAM_BOT_TOKEN env) (TELEGRAM_CHAT_ID env) message) ;;
  match post_error env with
  | Some r => raise (RequestException r)
  | None => mret tt
  end.

Definition send_telegram_notification (env : Env) (message : str) : M unit :=
  if bool_decide (TELEGRAM_BOT_TOKEN env = py "YOUR_BOT_TOKEN_HERE")
     || bool_decide (TELEGRAM_CHAT_ID env = py "YOUR_CHAT_ID_HERE")
  then emit (Stdout LTelegramMissing)
  else
    try_except is_RequestException
      (requests_post env message ;; emit (Stdout LTelegramSent))
      (λ e, emit (Stderr (LTelegramFailed e))).

Definition base_url : str := py "https://www.men.gov.ma/".

(** What one pass of the first loop of [notify_new_announcements] appends
    to [telegram_message].  The test [pdfs and pdfs[0].get('url')] holds
    when the array has a first object whose ["url"] is a non-empty string. *)
Definition telegram_block (a : Announcement) : str :=
  let title_fr := default (py "Announcement") (title_fr a) in
  let item_id := id a in
  let id_line := nl ++ nl ++ py "- <b>ID: " ++ str_of item_id ++ py "</b>" in
  let title_line :=
    nl ++ py "  <b>" ++ format_telegram_text_html title_fr ++ py "</b>" in
  let link_line :=
    match pdf a with
    | Some (p0 :: _) =>
        match url p0 with
        | Some (c :: u) =>
            let link_text :=
              format_telegram_text_html
                (default (py "View Document") (label_fr p0)) in
            let url := base_url ++ c :: u in
            nl ++ py "  <a href='" ++ url ++ py "'>" ++ link_text ++ py "</a>"
        | _ => []
        end
    | _ => []
    end in
  id_line ++ title_line ++ link_line.

Definition telegram_header (n : nat) : str :=
  py "<b>" ++ [128226] ++ py " " ++ str_of_int (Z.of_nat n)
  ++ py " New MEN Announcement(s)!</b>" ++ nl.

Definition telegram_message (new_items : list Announcement) : str :=
  foldl (λ message a, message ++ telegram_block a)
        (telegram_header (length new_items)) (reverse new_items).

(** [p["url"]] *)
Definition getitem_url (p : Pdf) : M str :=
  match url p with
  | Some u => mret u
  | None => raise (KeyError (py "url"))
  end.

(** One pass of the second loop: the console report of an entry. *)
Definition print_item (a : Announcement) : M unit :=
  emit (Stdout LRule) ;;
  emit (Stdout (LId (id a))) ;;
  emit (Stdout (LDate (default (py "N/A") (date a)))) ;;
  emit (Stdout (LTitleFr (default [] (title_fr a)))) ;;
  emit (Stdout (LTitleAr (default [] (title_ar a)))) ;;
  emit (Stdout (LSummaryFr (default [] (description_fr a)))) ;;
  emit (Stdout (LSummaryAr (default [] (description_ar a)))) ;;
  let pdfs := default [] (pdf a) in
  (match pdfs with
   | [] => mret tt
   | _ =>
       emit (Stdout LPdfHeader) ;;
       for_ pdfs (λ p,
         u ← getitem_url p;
         emit (Stdout (LPdf (default (py "Link") (label_fr p)) (base_url ++ u))))
   end) ;;
  emit (Stdout LRuleEnd).

Definition desktop_title : str := py "MEN " ++ [8211] ++ py " New Announcement".

Definition notify_new_announcements (env : Env) (new_items : list Announcement)
  : M unit :=
  emit (Stdout LBannerTop) ;;
  emit (Stdout (LFound (length new_items))) ;;
  emit (Stdout LBannerBottom) ;;
  let items_to_display := reverse new_items in
  match new_items with
  | [] => raise IndexError
  | newest_item :: _ =>
      let first_title := default (py "New Announcement") (title_fr newest_item) in
      let telegram_message := telegram_message new_items in
      for_ items_to_display print_item ;;
      send_desktop_notification env desktop_title first_title ;;
      send_telegram_notification env telegram_message
  end.

(** ** The cycle *)

(** [next(i for i, a in enumerate(announcements) if a["id"] == last_seen_id)] *)
Definition next_index (announcements : list Announcement) (last_seen_id : Ident)
  : M nat :=
  match list_find (λ a, id a = last_seen_id) announcements with
  | Some (i, _) => mret i
  | None => raise StopIteration
  end.

(** The [try] statement of [check_once] that computes [new_items]. *)
Definition find_new_items (announcements : list Announcement) (last_seen_id : Ident)
  : M (list Announcement) :=
  try_except is_StopIteration
    (index_of_last_seen ← next_index announcements last_seen_id;
     mret (take index_of_last_seen announcements))
    (λ _, emit (Stderr (LStale last_seen_id)) ;; mret announcements).

Definition check_once (env : Env) (last_seen_id : option Ident) : M (option Ident) :=
  try_except_else Exception
    (fetch_announcements env)
    (λ e, emit (Stderr (LError e)) ;; mret last_seen_id)
    (λ announcements,
      match get_latest_id announcements with
      | None => emit (Stdout LNoResults) ;; mret last_seen_id
      | Some latest_id =>
          match last_seen_id with
          | None =>
              save_last_id latest_id ;;
              emit (Stdout (LInit latest_id)) ;;
              mret (Some latest_id)
          | Some last_seen =>
              if bool_decide (latest_id = last_seen) then
                emit (Stdout LNoNew) ;; mret last_seen_id
              else
                new_items ← find_new_items announcements last_seen;
                match new_items with
                | [] => emit (Stdout LNoNewIndex) ;; mret last_seen_id
                | _ =>
                    notify_new_announcements env new_items ;;
                    save_last_id latest_id ;;
                    emit (Stdout (LUpdated last_seen latest_id)) ;;
                    mret (Some latest_id)
                end
          end
      end).

(** The first [n] turns of the loop of [main], one environment per turn;
    the marker of a turn is what the turn before returned. *)
Fixpoint cycles (envs : list Env) (last_seen_id : option Ident)
  : M (option Ident) :=
  match envs with
  | [] => mret last_seen_id
  | env :: rest =>
      last_seen_id ← check_once env last_seen_id;
      cycles rest last_seen_id
  end.

Definition main (envs : list Env) : M (option Ident) :=
  last_seen_id ← load_last_id;
  cycles envs (IStr <$> last_seen_id).

(** ** Vocabulary of the statements *)

(** The escape sequence of one character: what the three replacements of
    [format_telegram_text_html] make of it. *)
Definition escape_char (c : char) : str :=
  if c =? amp then py "&amp;"
  else if c =? lt then py "&lt;"
  else if c =? gt then py "&gt;"
  else [c].

(** [text] begins with [s]. *)
Definition starts_with (s text : str) : Prop := ∃ rest, text = s ++ rest.

(** Every [&] of [text] begins [&amp;], [&lt;] or [&gt;]. *)
Definition amp_begins_escape (text : str) : Prop :=
  ∀ before after, text = before ++ amp :: after →
    starts_with (py "amp;") after ∨ starts_with (py "lt;") after
    ∨ starts_with (py "gt;") after.

(** [s] consists of whitespace only (the empty string included). *)
Definition all_space (s : str) : Prop := Forall (λ c, is_space c = true) s.

(** The events the notifier may emit: console lines, the two sink calls and
    the two warnings about a failed sink. *)
Definition notifier_event (e : event) : Prop :=
  match e with
  | Stdout _ | NotifySend _ _ | TelegramPost _ _ _ => True
  | Stderr (LNotifySendError _) | Stderr (LTelegramFailed _) => True
  | _ => False
  end.

(** [m] leaves the state file as it is and emits only events in [P]. *)
Definition keeps {A} (P : event → Prop) (m : M A) : Prop :=
  ∀ f, file (m f) = f ∧ Forall P (trace (m f)).

(** An entry that has only an ["id"], and the surroundings of a cycle in
    which the endpoint answers [response] and both sinks work. *)
Definition entry (i : string) : Announcement :=
  {| id := IStr (py i); date := None; title_fr := None; title_ar := None;
     description_fr := None; description_ar := None; pdf := None |}.

Definition env_with (response : exn + list Announcement) : Env :=
  {| fetch_response := response;
     TELEGRAM_BOT_TOKEN := py "123:abc";
     TELEGRAM_CHAT_ID := py "42";
     notify_send_error := None;
     post_error := None |}.

(** [s] has none of the three characters the escaping replaces. *)
Definition markup_free (s : str) : Prop :=
  Forall (λ c, c ≠ amp ∧ c ≠ lt ∧ c ≠ gt) s.

(** Every object of the entry's ["pdf"] array has a ["url"]. *)
Definition has_urls (a : Announcement) : Prop :=
  Forall (λ p, is_Some (url p)) (default [] (pdf a)).

Global Instance has_urls_dec a : Decision (has_urls a).
Proof. unfold has_urls. apply _. Defined.

Definition is_stdout (e : event) : Prop :=
  match e with Stdout _ => True | _ => False end.


Definition is_write (e : event) : Prop :=
  match e with WriteState _ => True | _ => False end.

(** The console report of one entry, as a list of lines. *)
Definition item_lines (a : Announcement) : list event :=
  [ Stdout LRule;
    Stdout (LId (id a));
    Stdout (LDate (default (py "N/A") (date a)));
    Stdout (LTitleFr (default [] (title_fr a)));
    Stdout (LTitleAr (default [] (title_ar a)));
    Stdout (LSummaryFr (default [] (description_fr a)));
    Stdout (LSummaryAr (default [] (description_ar a))) ]
  ++ match default [] (pdf a) with
     | [] => []
     | pdfs =>
         Stdout LPdfHeader
         :: ((λ p, Stdout (LPdf (default (py "Link") (label_fr p))
                             (base_url ++ default [] (url p)))) <$> pdfs)
     end
  ++ [Stdout LRuleEnd].

Definition banner_lines (n : nat) : list event :=
  [Stdout LBannerTop; Stdout (LFound n); Stdout LBannerBottom].

(** What a call of [send_desktop_notification] emits. *)
Definition desktop_events (env : Env) (title message : str) : list event :=
  NotifySend title message
  :: match notify_send_error env with
     | Some e => [Stderr (LNotifySendError e)]
     | None => []
     end.

(** The Telegram configuration still holds a placeholder. *)
Definition telegram_unconfigured (env : Env) : bool :=
  bool_decide (TELEGRAM_BOT_TOKEN env = py "YOUR_BOT_TOKEN_HERE")
  || bool_decide (TELEGRAM_CHAT_ID env = py "YOUR_CHAT_ID_HERE").

(** What a call of [send_telegram_notification] emits. *)
Definition telegram_events (env : Env) (message : str) : list event :=
  if telegram_unconfigured env then [Stdout LTelegramMissing]
  else
    TelegramPost (TELEGRAM_BOT_TOKEN env) (TELEGRAM_CHAT_ID env) message
    :: match post_error env with
       | Some r => [Stderr (LTelegramFailed (RequestException r))]
       | None => [Stdout LTelegramSent]
       end.

(** What the notifier emits when it returns. *)
Definition notify_events (env : Env) (new_items : list Announcement)
  : list event :=
  banner_lines (length new_items)
  ++ (reverse new_items ≫= item_lines)
  ++ desktop_events env desktop_title
       (default (py "New Announcement") (head new_items ≫= title_fr))
  ++ telegram_events env (telegram_message new_items).


(** The first cycle of a started process: [main] from the load of the
    marker to the end of the first turn of its loop.  The three banner lines
    that [main] prints before and the sleep after the turn are not part of
    it. *)
Definition first_cycle (env : Env) : M (option Ident) :=
  last_seen_id ← load_last_id;
  check_once env (IStr <$> last_seen_id).

(** The fetch of every environment of the list raises. *)
Definition all_fetches_fail (envs : list Env) : Prop :=
  Forall (λ env, ∃ e, fetch_response env = inl e) envs.

(** The error lines of a run of cycles whose fetches all raise. *)
Definition fetch_error_lines (envs : list Env) : list event :=
  envs ≫= λ env,
    match fetch_response env with
    | inl e => [Stderr (LError e)]
    | inr _ => []
    end.

(** ** Escaping *)

Section escaping.

Lemma replace_app old new s t :
  replace old new (s ++ t) = replace old new s ++ replace old new t.
Proof.
  induction s as [|c s IH]; simpl; [done|].
  by rewrite IH, (assoc (++)).
Qed.

Lemma format_telegram_text_html_cons c text :
  format_telegram_text_html (c :: text)
  = escape_char c ++ format_telegram_text_html text.
Proof.
  unfold format_telegram_text_html, escape_char. simpl.
  destruct (c =? amp) eqn:Ha.
  { by rewrite !replace_app. }
  simpl. destruct (c =? lt) eqn:Hl.
  { by rewrite !replace_app. }
  simpl. by destruct (c =? gt) eqn:Hg.
Qed.

Lemma format_telegram_text_html_bind text :
  format_telegram_text_html text = (text ≫= escape_char).
Proof.
  induction text as [|c text IH]; [done|].
  by rewrite format_telegram_text_html_cons, IH.
Qed.

Lemma escape_char_cases c :
  (c = amp ∧ escape_char c = py "&amp;")
  ∨ (c = lt ∧ escape_char c = py "&lt;")
  ∨ (c = gt ∧ escape_char c = py "&gt;")
  ∨ (c ≠ amp ∧ c ≠ lt ∧ c ≠ gt ∧ escape_char c = [c]).
Proof.
  unfold escape_char.
  destruct (N.eqb_spec c amp); [by left|].
  destruct (N.eqb_spec c lt); [by right; left|].
  destruct (N.eqb_spec c gt); [by right; right; left|].
  by right; right; right.
Qed.

Lemma escape_char_no_markup c :
  Forall (λ x, x ≠ lt ∧ x ≠ gt) (escape_char c).
Proof.
  destruct (escape_char_cases c) as [[_ ->]|[[_ ->]|[[_ ->]|(_&?&?&->)]]];
    repeat constructor; done.
Qed.

Lemma format_telegram_text_html_no_markup text :
  Forall (λ x, x ≠ lt ∧ x ≠ gt) (format_telegram_text_html text).
Proof.
  induction text as [|c text IH]; [constructor|].
  rewrite format_telegram_text_html_cons.
  apply Forall_app. split; [apply escape_char_no_markup|done].
Qed.

(** A character that is not [&] in front of an occurrence of [&]. *)
Lemma peel_not_amp x (l before after : str) :
  x ≠ amp → x :: l = before ++ amp :: after →
  ∃ before', before = x :: before' ∧ l = before' ++ amp :: after.
Proof.
  intros Hx Heq. destruct before as [|y before]; simplify_eq/=.
  eauto.
Qed.

Lemma peel_head x (l before after : str) :
  x :: l = before ++ amp :: after →
  (before = [] ∧ x = amp ∧ l = after)
  ∨ ∃ before', before = x :: before' ∧ l = before' ++ amp :: after.
Proof.
  intros Heq. destruct before as [|y before]; simplify_eq/=; eauto.
Qed.

Lemma amp_begins_escape_cons c out :
  amp_begins_escape out → amp_begins_escape (escape_char c ++ out).
Proof.
  intros IH before after Heq.
  destruct (escape_char_cases c) as [[_ E]|[[_ E]|[[_ E]|(Ha&_&_&E)]]];
    rewrite E in Heq; clear E.
  - change (py "&amp;" ++ out) with (amp :: [97; 109; 112; 59] ++ out) in Heq.
    apply peel_head in Heq as [(_&_&<-)|(?&->&Heq)].
    { left. by eexists. }
    do 4 (apply peel_not_amp in Heq as (?&->&Heq); [|done]).
    by apply (IH _ _ Heq).
  - change (py "&lt;" ++ out) with (amp :: [108; 116; 59] ++ out) in Heq.
    apply peel_head in Heq as [(_&_&<-)|(?&->&Heq)].
    { right; left. by eexists. }
    do 3 (apply peel_not_amp in Heq as (?&->&Heq); [|done]).
    by apply (IH _ _ Heq).
  - change (py "&gt;" ++ out) with (amp :: [103; 116; 59] ++ out) in Heq.
    apply peel_head in Heq as [(_&_&<-)|(?&->&Heq)].
    { right; right. by eexists. }
    do 3 (apply peel_not_amp in Heq as (?&->&Heq); [|done]).
    by apply (IH _ _ Heq).
  - apply peel_not_amp in Heq as (?&->&H); [|done].
    by apply (IH _ _ H).
Qed.

Lemma format_telegram_text_html_amp text :
  amp_begins_escape (format_telegram_text_html text).
Proof.
  induction text as [|c text IH].
  - intros [|??] ? ?; simplify_eq/=.
  - rewrite format_telegram_text_html_cons. by apply amp_begins_escape_cons.
Qed.

End escaping.

(** ** Text: stripping and newline translation *)

Section text.

Lemma lstrip_nil s : lstrip s = [] ↔ all_space s.
Proof.
  unfold all_space. induction s as [|c s IH]; simpl.
  - split; [constructor|done].
  - destruct (is_space c) eqn:Hc.
    + rewrite IH. split; [by constructor|by inversion 1].
    + split; [done|]. inversion 1; congruence.
Qed.

Lemma lstrip_suffix s : ∃ spaces, all_space spaces ∧ s = spaces ++ lstrip s.
Proof.
  induction s as [|c s (spaces & Hsp & IH)]; simpl.
  - by exists []; split; [constructor|].
  - destruct (is_space c) eqn:Hc.
    + exists (c :: spaces). split; [by constructor|]. simpl. by f_equal.
    + by exists []; split; [constructor|].
Qed.

Lemma all_space_reverse s : all_space (reverse s) ↔ all_space s.
Proof. unfold all_space. by rewrite Forall_reverse. Qed.

Lemma rstrip_nil s : rstrip s = [] ↔ all_space s.
Proof.
  unfold rstrip. rewrite <- all_space_reverse, <- lstrip_nil.
  split; [|by intros ->].
  intros H. apply (f_equal reverse) in H. by rewrite reverse_involutive in H.
Qed.

Lemma strip_nil s : strip s = [] ↔ all_space s.
Proof.
  unfold strip. rewrite rstrip_nil. split.
  - intros H. apply lstrip_nil in H as H'.
    destruct (lstrip_suffix s) as (spaces & Hsp & Heq).
    rewrite Heq. apply Forall_app. split; [done|].
    destruct (lstrip s) as [|c0 t]; [constructor|].
    simpl in H'. by destruct (is_space c0).
  - intros H. apply lstrip_nil in H. rewrite H. constructor.
Qed.

Lemma lstrip_head c s : is_space c = false → lstrip (c :: s) = c :: s.
Proof. intros H. simpl. by rewrite H. Qed.

Lemma strip_id s c c' :
  head s = Some c → is_space c = false →
  last s = Some c' → is_space c' = false →
  strip s = s.
Proof.
  intros Hh Hc Hl Hc'. unfold strip, rstrip.
  destruct s as [|x s]; simplify_eq/=. rewrite Hc.
  destruct (reverse (c :: s)) as [|y r] eqn:Hr.
  { apply (f_equal length) in Hr. by rewrite length_reverse in Hr. }
  assert (y = c') as ->.
  { apply (f_equal reverse) in Hr. rewrite reverse_involutive in Hr.
    rewrite Hr, reverse_cons, last_snoc in Hl. congruence. }
  rewrite lstrip_head by done.
  by rewrite <- Hr, reverse_involutive.
Qed.

Lemma universal_newlines_cr_lf s :
  universal_newlines (13 :: 10 :: s) = 10 :: universal_newlines s.
Proof. done. Qed.

Lemma universal_newlines_cr c s :
  c ≠ 10 → universal_newlines (13 :: c :: s) = 10 :: universal_newlines (c :: s).
Proof.
  intros Hc. change (universal_newlines (13 :: c :: s))
    with (if c =? 10 then 10 :: universal_newlines s
          else 10 :: universal_newlines (c :: s)).
  by destruct (N.eqb_spec c 10).
Qed.

Lemma universal_newlines_cr_end : universal_newlines [13] = [10].
Proof. done. Qed.

Lemma universal_newlines_other c s :
  c ≠ 13 → universal_newlines (c :: s) = c :: universal_newlines s.
Proof.
  intros Hc. change (universal_newlines (c :: s))
    with (if c =? 13 then
            match s with
            | c' :: rest' =>
                if c' =? 10 then 10 :: universal_newlines rest'
                else 10 :: universal_newlines s
            | [] => [10]
            end
          else c :: universal_newlines s).
  by destruct (N.eqb_spec c 13).
Qed.

Lemma universal_newlines_space s :
  all_space (universal_newlines s) ↔ all_space s.
Proof.
  unfold all_space. induction s as [|c s IH]; [done|].
  assert (is_space 10 = true) as Hlf by done.
  assert (is_space 13 = true) as Hcr by done.
  destruct (decide (c = 13)) as [->|Hc].
  - destruct s as [|c' s'].
    { rewrite universal_newlines_cr_end. split; intros _; by repeat constructor. }
    destruct (decide (c' = 10)) as [->|Hc'].
    + rewrite universal_newlines_cr_lf.
      rewrite universal_newlines_other in IH by done.
      rewrite ?Forall_cons in IH; rewrite ?Forall_cons; tauto.
    + rewrite universal_newlines_cr by done.
      rewrite ?Forall_cons in IH; rewrite ?Forall_cons; tauto.
  - rewrite universal_newlines_other by done.
    rewrite !Forall_cons. tauto.
Qed.

Lemma universal_newlines_id s : 13 ∉ s → universal_newlines s = s.
Proof.
  induction s as [|c s IH]; [done|].
  intros [Hc Hs]%not_elem_of_cons.
  rewrite universal_newlines_other by done. by rewrite IH.
Qed.

End text.

(** ** Effects: sequencing *)

Section sequencing.

Lemma bind_val {A B} (m : M A) (k : A → M B) f a es f' :
  m f = Outcome (Val a) es f' →
  (m ≫= k) f
  = Outcome (result (k a f')) (es ++ trace (k a f')) (file (k a f')).
Proof. intros H. unfold mbind, M_bind. by rewrite H. Qed.

Lemma bind_exc {A B} (m : M A) (k : A → M B) f e es f' :
  m f = Outcome (Exc e) es f' → (m ≫= k) f = Outcome (Exc e) es f'.
Proof. intros H. unfold mbind, M_bind. by rewrite H. Qed.

End sequencing.

(** ** Effects: what a computation leaves alone *)

Section frame.

Context (P : event → Prop).

Lemma keeps_ret {A} (a : A) : keeps P (mret a).
Proof. intros f. by split; [|constructor]. Qed.

Lemma keeps_raise {A} e : keeps P (raise (A:=A) e).
Proof. intros f. by split; [|constructor]. Qed.

Lemma keeps_emit e : P e → keeps P (emit e).
Proof. intros He f. split; [done|]. by repeat constructor. Qed.

Lemma keeps_bind {A B} (m : M A) (k : A → M B) :
  keeps P m → (∀ a, keeps P (k a)) → keeps P (m ≫= k).
Proof.
  intros Hm Hk f. destruct (Hm f) as [Hf Ht].
  unfold mbind, M_bind. destruct (result (m f)) as [a|e]; simpl; [|done].
  destruct (Hk a (file (m f))) as [Hf' Ht'].
  split; [congruence|]. by apply Forall_app.
Qed.

Lemma keeps_try_except {A} cls (body : M A) handler :
  keeps P body → (∀ e, keeps P (handler e)) →
  keeps P (try_except cls body handler).
Proof.
  intros Hm Hh f. destruct (Hm f) as [Hf Ht].
  unfold try_except. destruct (result (body f)) as [a|e]; [done|].
  destruct (cls e); [|done]. simpl.
  destruct (Hh e (file (body f))) as [Hf' Ht'].
  split; [congruence|]. by apply Forall_app.
Qed.

Lemma keeps_for {A} (xs : list A) body :
  (∀ x, keeps P (body x)) → keeps P (for_ xs body).
Proof.
  intros Hb. induction xs as [|x xs IH]; simpl.
  - apply keeps_ret.
  - apply keeps_bind; [apply Hb|done].
Qed.

End frame.

Create HintDb keeps.
#[local] Hint Resolve keeps_ret keeps_raise keeps_bind keeps_try_except
  keeps_for : keeps.
#[local] Hint Extern 1 (keeps notifier_event (emit _)) =>
  apply keeps_emit; exact I : keeps.

Section notifier.

Lemma print_item_keeps a : keeps notifier_event (print_item a).
Proof.
  unfold print_item.
  repeat (apply keeps_bind; [auto with keeps|intros _]);
    [|auto with keeps].
  destruct (default [] (pdf a)) as [|q qs]; [auto with keeps|].
  apply keeps_bind; [auto with keeps|intros _].
  apply keeps_for. intros p. unfold getitem_url.
  destruct (url p); auto with keeps.
Qed.

Lemma send_desktop_notification_keeps env title message :
  keeps notifier_event (send_desktop_notification env title message).
Proof.
  unfold send_desktop_notification, subprocess_run_notify_send.
  apply keeps_try_except; [|auto with keeps].
  apply keeps_bind; [auto with keeps|intros _].
  destruct (notify_send_error env); auto with keeps.
Qed.

Lemma send_telegram_notification_keeps env message :
  keeps notifier_event (send_telegram_notification env message).
Proof.
  unfold send_telegram_notification, requests_post.
  destruct (_ || _); [auto with keeps|].
  apply keeps_try_except; [|auto with keeps].
  apply keeps_bind; [|auto with keeps].
  apply keeps_bind; [auto with keeps|intros _].
  destruct (post_error env); auto with keeps.
Qed.

Lemma notify_new_announcements_keeps env new_items :
  keeps notifier_event (notify_new_announcements env new_items).
Proof.
  unfold notify_new_announcements.
  do 3 (apply keeps_bind; [auto with keeps|intros _]).
  destruct new_items as [|newest_item rest]; [auto with keeps|].
  apply keeps_bind; [|intros _; apply keeps_bind; [|intros _]].
  - apply keeps_for, print_item_keeps.
  - apply send_desktop_notification_keeps.
  - apply send_telegram_notification_keeps.
Qed.

End notifier.

(** ** The state store *)

Section store.

Lemma load_last_id_eq f :
  load_last_id f =
  Outcome
    (Val (content ← f;
          match strip (universal_newlines content) with
          | [] => None
          | s => Some s
          end))
    [] f.
Proof. by destruct f. Qed.

Lemma save_last_id_eq last_id f :
  save_last_id last_id f
  = if is_text (str_of last_id)
    then Outcome (Val tt) [WriteState (str_of last_id)] (Some (str_of last_id))
    else Outcome (Exc UnicodeEncodeError) [WriteState (str_of last_id)]
           (Some []).
Proof. done. Qed.

Lemma save_then {B} last_id (k : unit → M B) f :
  (save_last_id last_id ≫= k) f
  = if is_text (str_of last_id)
    then Outcome (result (k tt (Some (str_of last_id))))
           (WriteState (str_of last_id) :: trace (k tt (Some (str_of last_id))))
           (file (k tt (Some (str_of last_id))))
    else Outcome (Exc UnicodeEncodeError) [WriteState (str_of last_id)]
           (Some []).
Proof.
  unfold mbind, M_bind. rewrite save_last_id_eq.
  destruct (is_text (str_of last_id)); reflexivity.
Qed.

Lemma save_then_load_eq last_id f :
  is_text (str_of last_id) = true →
  (save_last_id last_id ;; load_last_id) f =
  Outcome
    (Val (match strip (universal_newlines (str_of last_id)) with
          | [] => None
          | s => Some s
          end))
    [WriteState (str_of last_id)] (Some (str_of last_id)).
Proof.
  intros Htext. rewrite save_then, Htext. done.
Qed.



End store.

(** ** The scan for the marker *)

Section scan.

Implicit Types (announcements : list Announcement) (last_seen : Ident).

Lemma find_new_items_found announcements last_seen k a f :
  list_find (λ a, id a = last_seen) announcements = Some (k, a) →
  find_new_items announcements last_seen f
  = Outcome (Val (take k announcements)) [] f.
Proof.
  intros H. unfold find_new_items, try_except, next_index, mbind, M_bind.
  by rewrite H.
Qed.

Lemma find_new_items_stale announcements last_seen f :
  list_find (λ a, id a = last_seen) announcements = None →
  find_new_items announcements last_seen f
  = Outcome (Val announcements) [Stderr (LStale last_seen)] f.
Proof.
  intros H. unfold find_new_items, try_except, next_index, mbind, M_bind.
  by rewrite H.
Qed.

(** Past the test [latest_id == last_seen_id] the scan never comes back
    empty: the marker is not at index 0. *)
Lemma find_new_items_nonempty announcements last_seen latest_id f :
  get_latest_id announcements = Some latest_id →
  latest_id ≠ last_seen →
  ∃ a rest es,
    find_new_items announcements last_seen f = Outcome (Val (a :: rest)) es f
    ∧ (es = [] ∨ es = [Stderr (LStale last_seen)]).
Proof.
  intros Hl Hne. destruct announcements as [|a0 rest]; simplify_eq/=.
  destruct (list_find (λ a, id a = last_seen) (a0 :: rest))
    as [[k a]|] eqn:Hfind.
  - rewrite (find_new_items_found _ _ _ _ _ Hfind).
    apply list_find_Some in Hfind as (Hk & Ha & _).
    destruct k as [|k]; simplify_eq/=. eauto 6.
  - rewrite (find_new_items_stale _ _ _ Hfind). eauto 6.
Qed.

End scan.

(** ** The cycle, branch by branch *)

Section cycle.

Implicit Types (announcements : list Announcement) (last_seen : Ident).

(** The tail of [check_once] once [new_items] is known to be non-empty. *)
Local Notation notify_and_save env new_items last_seen latest_id :=
  (notify_new_announcements env new_items ;;
   save_last_id latest_id ;;
   emit (Stdout (LUpdated last_seen latest_id)) ;;
   mret (Some latest_id)).

Lemma check_once_fetch_failed env last_seen_id e f :
  fetch_response env = inl e →
  check_once env last_seen_id f
  = Outcome (Val last_seen_id) [Stderr (LError e)] f.
Proof.
  intros H. unfold check_once, try_except_else, fetch_announcements.
  by rewrite H.
Qed.

Lemma check_once_no_results env last_seen_id f :
  fetch_response env = inr [] →
  check_once env last_seen_id f
  = Outcome (Val last_seen_id) [Stdout LNoResults] f.
Proof.
  intros H. unfold check_once, try_except_else, fetch_announcements.
  by rewrite H.
Qed.

Lemma check_once_init env announcements latest_id f :
  fetch_response env = inr announcements →
  get_latest_id announcements = Some latest_id →
  check_once env None f
  = if is_text (str_of latest_id)
    then Outcome (Val (Some latest_id))
           [WriteState (str_of latest_id); Stdout (LInit latest_id)]
           (Some (str_of latest_id))
    else Outcome (Exc UnicodeEncodeError) [WriteState (str_of latest_id)]
           (Some []).
Proof.
  intros H Hl. unfold check_once, try_except_else, fetch_announcements.
  rewrite H. simpl. rewrite Hl. rewrite save_then.
  destruct (is_text (str_of latest_id)); reflexivity.
Qed.

Lemma check_once_no_new env announcements last_seen f :
  fetch_response env = inr announcements →
  get_latest_id announcements = Some last_seen →
  check_once env (Some last_seen) f
  = Outcome (Val (Some last_seen)) [Stdout LNoNew] f.
Proof.
  intros H Hl. unfold check_once, try_except_else, fetch_announcements.
  rewrite H. simpl. rewrite Hl.
  by rewrite (bool_decide_eq_true_2 (last_seen = last_seen)).
Qed.

Lemma check_once_scan env announcements latest_id last_seen f :
  fetch_response env = inr announcements →
  get_latest_id announcements = Some latest_id →
  latest_id ≠ last_seen →
  ∃ a rest es,
    find_new_items announcements last_seen f = Outcome (Val (a :: rest)) es f
    ∧ (es = [] ∨ es = [Stderr (LStale last_seen)])
    ∧ check_once env (Some last_seen) f
      = let o := notify_and_save env (a :: rest) last_seen latest_id f in
        Outcome (result o) (es ++ trace o) (file o).
Proof.
  intros H Hl Hne.
  destruct (find_new_items_nonempty _ _ _ f Hl Hne)
    as (a & rest & es & Hs & Hes).
  exists a, rest, es. split; [done|]. split; [done|].
  unfold check_once, try_except_else, fetch_announcements.
  rewrite H. simpl. rewrite Hl.
  rewrite (bool_decide_eq_false_2 (latest_id = last_seen)) by done.
  rewrite (bind_val _ _ _ _ _ _ Hs). reflexivity.
Qed.

(** The tail of [check_once] after the notifier: what the save and the
    last line add to a state file and a trace. *)
Lemma save_and_report last_seen latest_id f :
  (save_last_id latest_id ;;
   emit (Stdout (LUpdated last_seen latest_id)) ;;
   mret (Some latest_id)) f
  = if is_text (str_of latest_id)
    then Outcome (Val (Some latest_id))
           [WriteState (str_of latest_id);
            Stdout (LUpdated last_seen latest_id)]
           (Some (str_of latest_id))
    else Outcome (Exc UnicodeEncodeError) [WriteState (str_of latest_id)]
           (Some []).
Proof.
  rewrite save_then. destruct (is_text (str_of latest_id)); reflexivity.
Qed.

(** Either the notifier raises, and the state file is not touched, or the
    save follows the notifier's events: the marker is written, or the write
    raises and leaves the file empty. *)
Lemma notify_and_save_outcome env new_items last_seen latest_id f :
  let o := notify_and_save env new_items last_seen latest_id f in
  Forall notifier_event (trace (notify_new_announcements env new_items f))
  ∧ ((∃ e, result o = Exc e ∧ file o = f
           ∧ trace o = trace (notify_new_announcements env new_items f))
     ∨ (is_text (str_of latest_id) = true
        ∧ o = Outcome (Val (Some latest_id))
                (trace (notify_new_announcements env new_items f)
                 ++ [WriteState (str_of latest_id);
                     Stdout (LUpdated last_seen latest_id)])
                (Some (str_of latest_id)))
     ∨ (is_text (str_of latest_id) = false
        ∧ o = Outcome (Exc UnicodeEncodeError)
                (trace (notify_new_announcements env new_items f)
                 ++ [WriteState (str_of latest_id)])
                (Some []))).
Proof.
  intros o. subst o.
  destruct (notify_new_announcements_keeps env new_items f) as [Hf Ht].
  split; [done|].
  destruct (notify_new_announcements env new_items f) as [r es f'] eqn:E.
  simpl in Hf. subst f'. destruct r as [[]|e].
  - right. rewrite (bind_val _ _ _ _ _ _ E). cbv beta.
    rewrite save_and_report.
    destruct (is_text (str_of latest_id)); [by left|by right].
  - left. exists e. rewrite (bind_exc _ _ _ _ _ _ E). done.
Qed.


(** Two turns of the loop, the second of which returns what it was given. *)
Lemma cycles_two env1 env2 last_seen_id f m1 es :
  result (check_once env1 last_seen_id f) = Val m1 →
  check_once env2 m1 (file (check_once env1 last_seen_id f))
  = Outcome (Val m1) es (file (check_once env1 last_seen_id f)) →
  cycles [env1; env2] last_seen_id f
  = Outcome (Val m1) (trace (check_once env1 last_seen_id f) ++ es)
      (file (check_once env1 last_seen_id f)).
Proof.
  intros Hres H2. simpl.
  assert (check_once env1 last_seen_id f
          = Outcome (Val m1) (trace (check_once env1 last_seen_id f))
              (file (check_once env1 last_seen_id f))) as H1
    by (by rewrite <- Hres).
  rewrite (bind_val _ _ _ _ _ _ H1).
  rewrite (bind_val _ _ _ _ _ _ H2). simpl.
  by rewrite (right_id [] (++)).
Qed.

End cycle.

(** ** The properties of the specification *)

Section properties.

Implicit Types (announcements : list Announcement) (last_seen : Ident).








(** C4.  When a cycle has returned and the next cycle fetches the same
    feed, the next cycle returns the marker it was given, leaves the state
    file alone and emits one console line only: no sink is called; the two
    turns of the loop of [main] emit what the first cycle emitted and that
    line; and a scan of that feed for that marker finds nothing new. *)
Theorem check_once_twice env1 env2 announcements last_seen_id f m1 :
  fetch_response env1 = inr announcements →
  fetch_response env2 = inr announcements →
  result (check_once env1 last_seen_id f) = Val m1 →
  let f1 := file (check_once env1 last_seen_id f) in
  (∃ l, (l = LNoNew ∨ l = LNoResults)
        ∧ check_once env2 m1 f1 = Outcome (Val m1) [Stdout l] f1
        ∧ cycles [env1; env2] last_seen_id f
          = Outcome (Val m1)
              (trace (check_once env1 last_seen_id f) ++ [Stdout l]) f1)
  ∧ (∀ last_seen, m1 = Some last_seen →
       result (find_new_items announcements last_seen f1) = Val []).
Proof.
  intros H1 H2 Hres f1.
  enough ((∃ l, (l = LNoNew ∨ l = LNoResults)
                ∧ check_once env2 m1 f1 = Outcome (Val m1) [Stdout l] f1)
          ∧ (∀ last_seen, m1 = Some last_seen →
               result (find_new_items announcements last_seen f1) = Val []))
    as [(l & Hl & H2nd) Hscan].
  { split; [|done]. exists l. split_and!; [done..|].
    by apply cycles_two. }
  destruct announcements as [|a0 rest].
  { split.
    - exists LNoResults. split; [by right|]. by apply check_once_no_results.
    - done. }
  assert (m1 = Some (id a0)) as ->.
  { destruct last_seen_id as [last_seen|].
    - destruct (decide (id a0 = last_seen)) as [<-|Hne].
      + rewrite (check_once_no_new _ _ _ _ H1 eq_refl) in Hres.
        by simplify_eq/=.
      + destruct (check_once_scan _ _ _ _ f H1 eq_refl Hne)
          as (a & new & es & _ & _ & Heq).
        rewrite Heq in Hres. simpl in Hres.
        destruct (notify_and_save_outcome env1 (a :: new) last_seen (id a0) f)
          as [_ [(e & He & _)|[(_ & Hok)|(_ & Hbad)]]].
        * rewrite He in Hres. done.
        * rewrite Hok in Hres. by simplify_eq/=.
        * rewrite Hbad in Hres. done.
    - rewrite (check_once_init _ _ _ _ H1 eq_refl) in Hres.
      destruct (is_text (str_of (id a0))); by simplify_eq/=. }
  split.
  - exists LNoNew. split; [by left|].
    by apply (check_once_no_new _ (a0 :: rest)).
  - intros last_seen [= <-].
    rewrite (find_new_items_found (a0 :: rest) (id a0) 0 a0); [done|].
    apply list_find_Some. split_and!; [done..|]. intros; lia.
Qed.

Lemma check_once_twice_ABC :
  let env := env_with (inr [entry "A"; entry "B"; entry "C"]) in
  let f1 := file (check_once env (Some (IStr (py "C"))) (Some (py "C"))) in
  (∃ l, (l = LNoNew ∨ l = LNoResults)
        ∧ check_once env (Some (IStr (py "A"))) f1
          = Outcome (Val (Some (IStr (py "A")))) [Stdout l] f1
        ∧ cycles [env; env] (Some (IStr (py "C"))) (Some (py "C"))
          = Outcome (Val (Some (IStr (py "A"))))
              (trace (check_once env (Some (IStr (py "C"))) (Some (py "C")))
               ++ [Stdout l]) f1)
  ∧ (∀ last_seen, Some (IStr (py "A")) = Some last_seen →
       result (find_new_items [entry "A"; entry "B"; entry "C"] last_seen f1)
       = Val []).
Proof.
  intros env.
  apply (check_once_twice env env [entry "A"; entry "B"; entry "C"]
           (Some (IStr (py "C"))) (Some (py "C")) (Some (IStr (py "A"))));
    reflexivity.
Defined.

(** C6.  When the fetch raises, whatever the exception, the cycle returns
    the marker it was given, leaves the state file alone, writes nothing
    and emits the error line only; it does not raise. *)
Theorem check_once_fetch_failure env last_seen_id e f :
  fetch_response env = inl e →
  check_once env last_seen_id f
  = Outcome (Val last_seen_id) [Stderr (LError e)] f.
Proof. apply check_once_fetch_failed. Qed.

Lemma check_once_fetch_failure_timeout :
  check_once (env_with (inl (RequestException Timeout)))
    (Some (IStr (py "A"))) (Some (py "A"))
  = Outcome (Val (Some (IStr (py "A"))))
      [Stderr (LError (RequestException Timeout))] (Some (py "A")).
Proof.
  apply (check_once_fetch_failure
           (env_with (inl (RequestException Timeout)))
           (Some (IStr (py "A"))) (RequestException Timeout) (Some (py "A")));
    reflexivity.
Defined.

(** C7.  In a cycle whose feed is empty, or whose newest id equals the
    marker, or whose scan for the marker yields no new items, the marker
    returned is the marker given, the state file is left alone and one
    console line is all that is emitted: nothing is written and no sink is
    called. *)
Theorem check_once_marker_unchanged env announcements last_seen_id f :
  fetch_response env = inr announcements →
  (announcements = []
   ∨ ∃ last_seen, last_seen_id = Some last_seen
       ∧ (get_latest_id announcements = Some last_seen
          ∨ result (find_new_items announcements last_seen f) = Val [])) →
  ∃ l, check_once env last_seen_id f
       = Outcome (Val last_seen_id) [Stdout l] f.
Proof.
  intros Hfetch [->|(last_seen & -> & Hcase)].
  { eexists. by apply check_once_no_results. }
  destruct announcements as [|a0 rest].
  { eexists. by apply check_once_no_results. }
  destruct (decide (id a0 = last_seen)) as [<-|Hne].
  { eexists. by apply (check_once_no_new _ (a0 :: rest)). }
  destruct Hcase as [Hl|Hscan]; [by simplify_eq/=|].
  destruct (find_new_items_nonempty (a0 :: rest) last_seen (id a0) f
              eq_refl Hne) as (a & new & es & Heq & _).
  rewrite Heq in Hscan. done.
Qed.

Lemma check_once_marker_unchanged_ABC :
  ∃ l, check_once (env_with (inr [entry "A"; entry "B"; entry "C"]))
         (Some (IStr (py "A"))) (Some (py "A"))
       = Outcome (Val (Some (IStr (py "A")))) [Stdout l] (Some (py "A")).
Proof.
  apply (check_once_marker_unchanged
           (env_with (inr [entry "A"; entry "B"; entry "C"]))
           [entry "A"; entry "B"; entry "C"]
           (Some (IStr (py "A"))) (Some (py "A"))); [reflexivity|].
  right. exists (IStr (py "A")). split; [reflexivity|]. left. reflexivity.
Defined.

(** C8.  The escaping function turns [<b>&test</b>] into
    [&lt;b&gt;&amp;test&lt;/b&gt;]; its output never contains [<] or [>],
    and every [&] of its output begins [&amp;], [&lt;] or [&gt;]. *)
Theorem format_telegram_text_html_escapes :
  format_telegram_text_html (py "<b>&test</b>")
  = py "&lt;b&gt;&amp;test&lt;/b&gt;"
  ∧ ∀ text,
      lt ∉ format_telegram_text_html text
      ∧ gt ∉ format_telegram_text_html text
      ∧ amp_begins_escape (format_telegram_text_html text).
Proof.
  split; [reflexivity|]. intros text.
  pose proof (format_telegram_text_html_no_markup text) as Hno.
  rewrite Forall_forall in Hno.
  split_and!.
  - intros Hin. by destruct (Hno _ Hin).
  - intros Hin. by destruct (Hno _ Hin).
  - apply format_telegram_text_html_amp.
Qed.

(** C9, what fails.  An identifier with a leading blank comes back without
    the blank; a carriage return inside an identifier comes back as a line
    feed; an integer identifier comes back as its decimal text, a string;
    and for an identifier that UTF-8 cannot encode the save raises and
    leaves an empty state file, from which [load] returns absence. *)
Lemma save_then_load_strips :
  (result ((save_last_id (IStr (py " 7")) ;; load_last_id) None)
   = Val (Some (py "7"))
   ∧ IStr (py "7") ≠ IStr (py " 7"))
  ∧ (result ((save_last_id (IStr [97; 13; 98]) ;; load_last_id) None)
     = Val (Some [97; 10; 98])
     ∧ IStr [97; 10; 98] ≠ IStr [97; 13; 98])
  ∧ (result ((save_last_id (IInt 12) ;; load_last_id) None)
     = Val (Some (py "12"))
     ∧ IStr (py "12") ≠ IInt 12)
  ∧ (save_last_id (IStr [55296]) (Some (py "7"))
     = Outcome (Exc UnicodeEncodeError) [WriteState [55296]] (Some [])
     ∧ result (load_last_id (Some [])) = Val None).
Proof. split_and!; (reflexivity || discriminate). Qed.

(** An integer identifier comes back from the state file as its decimal
    text, which is a string and so differs from the integer. *)
Example save_then_load_int :
  result ((save_last_id (IInt 12) ;; load_last_id) None) = Val (Some (py "12"))
  ∧ IStr (py "12") ≠ IInt 12.
Proof. split; [reflexivity|discriminate]. Qed.

(** C9, as the code has it.  For an identifier whose text UTF-8 can encode,
    when that text begins and ends with a character that is not whitespace
    and contains no carriage return, [save] followed by [load] returns that
    text: for a string identifier the identifier itself, for an integer its
    decimal text.  And [load] returns absence exactly when the state file
    does not exist or holds whitespace only (or nothing). *)
Theorem save_then_load (last_id : Ident) c c' f f' :
  is_text (str_of last_id) = true →
  head (str_of last_id) = Some c → is_space c = false →
  last (str_of last_id) = Some c' → is_space c' = false →
  13 ∉ str_of last_id →
  result ((save_last_id last_id ;; load_last_id) f)
  = Val (Some (str_of last_id))
  ∧ (result (load_last_id f') = Val None
     ↔ f' = None ∨ ∃ content, f' = Some content ∧ all_space content).
Proof.
  intros Htext Hh Hc Hl Hc' Hcr. split.
  - rewrite save_then_load_eq by done. cbn [result].
    rewrite universal_newlines_id by done.
    rewrite (strip_id (str_of last_id) c c') by done.
    by destruct (str_of last_id).
  - rewrite load_last_id_eq. simpl. destruct f' as [content|]; simpl.
    + pose proof (strip_nil (universal_newlines content)) as Hs.
      rewrite universal_newlines_space in Hs.
      destruct (strip (universal_newlines content)) eqn:E.
      * split; [|done]. intros _. right. exists content.
        split; [done|]. by apply Hs.
      * split; [done|]. intros [?|(? & [= <-] & Hsp)]; [done|].
        by apply Hs in Hsp.
    + split; [|done]. by left.
Qed.

Lemma save_then_load_A :
  (result ((save_last_id (IStr (py "A")) ;; load_last_id) None)
   = Val (Some (py "A"))
   ∧ (result (load_last_id (Some (py " "))) = Val None
      ↔ Some (py " ") = None
        ∨ ∃ content, Some (py " ") = Some content ∧ all_space content))
  ∧ (result ((save_last_id (IInt 12) ;; load_last_id) (Some (py "A")))
     = Val (Some (py "12"))
     ∧ (result (load_last_id None) = Val None
        ↔ @None (list N) = None
          ∨ ∃ content, None = Some content ∧ all_space content)).
Proof.
  split.
  - apply (save_then_load (IStr (py "A")) 65 65 None (Some (py " ")));
      [reflexivity..|].
    intros Hin. apply list_elem_of_singleton in Hin. discriminate.
  - apply (save_then_load (IInt 12) 49 50 (Some (py "A")) None);
      [reflexivity..|].
    intros [Hin|Hin%list_elem_of_singleton]%elem_of_cons; discriminate.
Defined.

(** A cycle that returned its marker after one line that is no write. *)
Local Ltac unchanged_cycle :=
  split_and!;
  [ intros ? [= <-]; by left
  | intros ? Hin; apply list_elem_of_singleton in Hin; done
  | by left ].

(** C10.  Whatever the surroundings, the marker and the state file: the
    marker a cycle returns is the marker it was given or the id of the
    first entry of the fetched feed; every call of the save passes the text
    of that id; and the state file is left as it was, or holds that text,
    or is empty after a save of that text that raised because UTF-8 cannot
    encode it.  It never holds the id of another entry. *)
Theorem check_once_marker_invariant env last_seen_id f :
  let o := check_once env last_seen_id f in
  (∀ m, result o = Val m →
     m = last_seen_id
     ∨ ∃ a rest, fetch_response env = inr (a :: rest) ∧ m = Some (id a))
  ∧ (∀ text, WriteState text ∈ trace o →
       ∃ a rest, fetch_response env = inr (a :: rest) ∧ text = str_of (id a))
  ∧ (file o = f
     ∨ ∃ a rest,
         fetch_response env = inr (a :: rest)
         ∧ (file o = Some (str_of (id a))
            ∨ (is_text (str_of (id a)) = false
               ∧ result o = Exc UnicodeEncodeError
               ∧ file o = Some []))).
Proof.
  intros o. subst o.
  destruct (fetch_response env) as [e|announcements] eqn:Hfetch.
  { rewrite (check_once_fetch_failed _ _ _ _ Hfetch). simpl.
    unchanged_cycle. }
  destruct announcements as [|a0 rest].
  { rewrite (check_once_no_results _ _ _ Hfetch). simpl.
    unchanged_cycle. }
  destruct last_seen_id as [last_seen|].
  - destruct (decide (id a0 = last_seen)) as [<-|Hne].
    { rewrite (check_once_no_new _ _ _ _ Hfetch eq_refl). simpl.
      unchanged_cycle. }
    destruct (check_once_scan _ _ _ _ f Hfetch eq_refl Hne)
      as (a & new & es & _ & Hes & ->).
    assert (∀ text, WriteState text ∈ es → False) as Hno.
    { intros text Hin. destruct Hes as [-> | ->];
        [by apply elem_of_nil in Hin|].
      apply list_elem_of_singleton in Hin. done. }
    destruct (notify_and_save_outcome env (a :: new) last_seen (id a0) f)
      as [Hev [(e & He & Hf & Ht)|[(Htext & Hok)|(Htext & Hbad)]]];
      rewrite Forall_forall in Hev;
      remember (trace (notify_new_announcements env (a :: new) f)) as tn
        eqn:Htn; clear Htn; cbv zeta.
    + rewrite He, Hf, Ht. cbn [result trace file].
      split_and!; [done| |by left].
      intros text [Hin|Hin]%elem_of_app; [by destruct (Hno text)|].
      by apply Hev in Hin.
    + rewrite Hok. cbn [result trace file]. split_and!.
      * intros m [= <-]. right. by exists a0, rest.
      * intros text [Hin|[Hin|Hin]%elem_of_app]%elem_of_app.
        -- by destruct (Hno text).
        -- by apply Hev in Hin.
        -- apply elem_of_cons in Hin as [[= ->]|Hin]; [by exists a0, rest|].
           apply list_elem_of_singleton in Hin. done.
      * right. exists a0, rest. split; [done|by left].
    + rewrite Hbad. cbn [result trace file]. split_and!; [done| |].
      * intros text [Hin|[Hin|Hin]%elem_of_app]%elem_of_app.
        -- by destruct (Hno text).
        -- by apply Hev in Hin.
        -- apply list_elem_of_singleton in Hin as [= ->]. by exists a0, rest.
      * right. exists a0, rest. split; [done|by right].
  - rewrite (check_once_init _ _ _ _ Hfetch eq_refl).
    destruct (is_text (str_of (id a0))) eqn:Htext; cbn [result trace file];
      split_and!.
    + intros m [= <-]. right. by exists a0, rest.
    + intros text [[= ->]|Hin]%elem_of_cons; [by exists a0, rest|].
      apply list_elem_of_singleton in Hin. done.
    + right. exists a0, rest. split; [done|by left].
    + done.
    + intros text Hin. apply list_elem_of_singleton in Hin as [= ->].
      by exists a0, rest.
    + right. exists a0, rest. split; [done|by right].
Qed.

(** C5, where the code departs from it.  The id of an entry goes into the
    chat message as it is: for an entry whose id is [<1>] the id line
    reads [<b>ID: <1></b>], this text is what the cycle posts, and it is
    not what the escaping function makes of the id.  The title line of the
    same message is escaped. *)
Theorem telegram_message_id_verbatim :
  let a :=
    {| id := IStr (py "<1>"); date := None; title_fr := Some (py "a<b");
       title_ar := None; description_fr := None; description_ar := None;
       pdf := None |} in
  telegram_message [a]
  = telegram_header 1
    ++ nl ++ nl ++ py "- <b>ID: <1></b>"
    ++ nl ++ py "  <b>a&lt;b</b>"
  ∧ TelegramPost (py "123:abc") (py "42") (telegram_message [a])
    ∈ trace (check_once (env_with (inr [a; entry "0"]))
               (Some (IStr (py "0"))) None)
  ∧ format_telegram_text_html (str_of (id a)) = py "&lt;1&gt;".
Proof.
  intros a. split_and!; [reflexivity| |reflexivity].
  vm_compute.
  repeat first [apply list_elem_of_here | apply list_elem_of_further].
Qed.

End properties.

(** ** More on escaping *)

Section escaping_more.

Lemma format_telegram_text_html_length text :
  (length text ≤ length (format_telegram_text_html text))%nat.
Proof.
  induction text as [|c text IH]; [done|].
  rewrite format_telegram_text_html_cons, length_app. simpl.
  destruct (escape_char_cases c) as [[_ ->]|[[_ ->]|[[_ ->]|(_&_&_&->)]]];
    simpl; lia.
Qed.

(** Escaping distributes over concatenation. *)
Lemma format_telegram_text_html_app s t :
  format_telegram_text_html (s ++ t)
  = format_telegram_text_html s ++ format_telegram_text_html t.
Proof. rewrite !format_telegram_text_html_bind. apply bind_app. Qed.

Lemma format_fixed_iff text :
  format_telegram_text_html text = text ↔ markup_free text.
Proof.
  unfold markup_free. induction text as [|c text IH].
  { split; [constructor|done]. }
  rewrite format_telegram_text_html_cons, Forall_cons.
  pose proof (format_telegram_text_html_length text) as Hlen.
  destruct (escape_char_cases c) as [[-> E]|[[-> E]|[[-> E]|(?&?&?&E)]]];
    rewrite E.
  1-3: split; [|by intros [(?&?&?) _]];
       intros Heq; apply (f_equal length) in Heq;
       rewrite length_app in Heq; simpl in Heq; lia.
  simpl. split.
  - intros [= Heq]. split; [done|]. by apply IH.
  - intros [_ Hfree]. f_equal. by apply IH.
Qed.

(** Escaping leaves a text as it is exactly when the text has none of
    [&], [<], [>]. *)
Lemma format_telegram_text_html_id_iff text :
  format_telegram_text_html text = text ↔ markup_free text.
Proof. apply format_fixed_iff. Qed.

Lemma escape_char_app_inj c c' (x y : str) :
  escape_char c ++ x = escape_char c' ++ y → c = c' ∧ x = y.
Proof.
  destruct (escape_char_cases c) as [[-> E]|[[-> E]|[[-> E]|(?&?&?&E)]]];
    rewrite E; clear E;
    destruct (escape_char_cases c') as [[-> E]|[[-> E]|[[-> E]|(?&?&?&E)]]];
    rewrite E; clear E; intros Heq; vm_compute in Heq;
    try discriminate; simplify_eq; done.
Qed.

(** Escaping loses nothing: two texts with the same escaped form are the
    same text. *)
Lemma format_telegram_text_html_inj s t :
  format_telegram_text_html s = format_telegram_text_html t → s = t.
Proof.
  revert t. induction s as [|c s IH]; intros [|c' t].
  - done.
  - rewrite format_telegram_text_html_cons.
    destruct (escape_char_cases c') as [[_ ->]|[[_ ->]|[[_ ->]|(_&_&_&->)]]];
      discriminate.
  - rewrite format_telegram_text_html_cons.
    destruct (escape_char_cases c) as [[_ ->]|[[_ ->]|[[_ ->]|(_&_&_&->)]]];
      discriminate.
  - rewrite !format_telegram_text_html_cons.
    intros [-> Heq]%escape_char_app_inj. f_equal. by apply IH.
Qed.

Lemma format_telegram_text_html_inj_title :
  py "a<b" = [97; 60; 98].
Proof.
  apply (format_telegram_text_html_inj (py "a<b") [97; 60; 98]). reflexivity.
Defined.

Lemma markup_free_format text :
  markup_free (format_telegram_text_html text) → markup_free text.
Proof.
  unfold markup_free. induction text as [|c text IH]; [done|].
  rewrite format_telegram_text_html_cons, Forall_app.
  intros [Hc Hrest]. constructor; [|by apply IH].
  destruct (escape_char_cases c) as [[-> E]|[[-> E]|[[-> E]|(?&?&?&E)]]];
    rewrite E in Hc; [| | |done];
    apply Forall_cons in Hc as [(Hamp & _) _]; done.
Qed.

(** Escaping twice gives the result of escaping once exactly when there was
    nothing to escape. *)
Lemma format_telegram_text_html_twice_iff text :
  format_telegram_text_html (format_telegram_text_html text)
  = format_telegram_text_html text
  ↔ markup_free text.
Proof.
  rewrite format_fixed_iff. split.
  - apply markup_free_format.
  - intros H. by rewrite (proj2 (format_fixed_iff text) H).
Qed.

End escaping_more.

(** ** More on the state store *)

Section store_more.

Lemma lstrip_head_not_space s c t : lstrip s = c :: t → is_space c = false.
Proof.
  induction s as [|x s IH]; [done|]. simpl.
  destruct (is_space x) eqn:Hx; [done|]. by intros [= <- _].
Qed.

Lemma rstrip_prefix s : ∃ spaces, all_space spaces ∧ s = rstrip s ++ spaces.
Proof.
  destruct (lstrip_suffix (reverse s)) as (spaces & Hsp & Heq).
  exists (reverse spaces). split; [by apply all_space_reverse|].
  unfold rstrip. rewrite <- reverse_app, <- Heq. by rewrite reverse_involutive.
Qed.

Lemma elem_of_strip x s : x ∈ strip s → x ∈ s.
Proof.
  unfold strip. intros Hx.
  destruct (rstrip_prefix (lstrip s)) as (sp & _ & Heq).
  destruct (lstrip_suffix s) as (sp' & _ & Heq').
  rewrite Heq'. apply elem_of_app. right.
  rewrite Heq. apply elem_of_app. by left.
Qed.

Lemma strip_ends s c t :
  strip s = c :: t →
  is_space c = false
  ∧ ∃ c', last (c :: t) = Some c' ∧ is_space c' = false.
Proof.
  unfold strip. intros Hs. split.
  - destruct (rstrip_prefix (lstrip s)) as (sp & _ & Heq).
    rewrite Hs in Heq. by apply (lstrip_head_not_space s c (t ++ sp)).
  - unfold rstrip in Hs.
    destruct (lstrip (reverse (lstrip s))) as [|c' r] eqn:Hr; [done|].
    exists c'. split; [|by apply lstrip_head_not_space in Hr].
    by rewrite <- Hs, last_reverse.
Qed.

Lemma universal_newlines_no_cr s : 13 ∉ universal_newlines s.
Proof.
  induction s as [|c s IH]; [by apply not_elem_of_nil|].
  destruct (decide (c = 13)) as [->|Hc].
  - destruct s as [|c' s'].
    { rewrite universal_newlines_cr_end.
      intros Hin%list_elem_of_singleton. done. }
    destruct (decide (c' = 10)) as [->|Hc'].
    + rewrite universal_newlines_cr_lf.
      rewrite universal_newlines_other in IH by done. done.
    + rewrite universal_newlines_cr by done.
      apply not_elem_of_cons. done.
  - rewrite universal_newlines_other by done.
    apply not_elem_of_cons. done.
Qed.

Lemma load_last_id_stripped f s :
  result (load_last_id f) = Val (Some s) →
  (∃ c c', head s = Some c ∧ is_space c = false
           ∧ last s = Some c' ∧ is_space c' = false)
  ∧ 13 ∉ s.
Proof.
  rewrite load_last_id_eq. cbn [result].
  destruct f as [content|]; [|done]. simpl.
  destruct (strip (universal_newlines content)) as [|c t] eqn:E; [done|].
  intros [= <-].
  destruct (strip_ends _ _ _ E) as (Hc & c' & Hl & Hc').
  split; [by exists c, c'|].
  intros Hin. rewrite <- E in Hin. apply elem_of_strip in Hin.
  by apply universal_newlines_no_cr in Hin.
Qed.

(** [load_last_id] never raises, emits nothing and leaves the file alone;
    a marker it returns is not empty, begins and ends with a character that
    is not whitespace and holds no carriage return. *)
Lemma load_last_id_clean f :
  ∃ r, load_last_id f = Outcome (Val r) [] f
       ∧ ∀ s, r = Some s →
           (∃ c c', head s = Some c ∧ is_space c = false
                    ∧ last s = Some c' ∧ is_space c' = false)
           ∧ 13 ∉ s.
Proof.
  eexists. split; [apply load_last_id_eq|].
  intros s Hs. apply (load_last_id_stripped f).
  rewrite load_last_id_eq. cbn [result]. by rewrite Hs.
Qed.

Lemma is_text_Forall s : is_text s = true ↔ Forall (λ c, encodable c = true) s.
Proof.
  unfold is_text. rewrite forallb_forall, Forall_forall.
  split; intros H c Hin; apply H; by apply list_elem_of_In.
Qed.

Lemma elem_of_universal_newlines x s :
  x ∈ universal_newlines s → x = 10 ∨ x ∈ s.
Proof.
  induction s as [|c s IH]; [by right|].
  destruct (decide (c = 13)) as [->|Hc].
  - destruct s as [|c' s'].
    { rewrite universal_newlines_cr_end.
      intros ->%list_elem_of_singleton. by left. }
    destruct (decide (c' = 10)) as [->|Hc'].
    + rewrite universal_newlines_cr_lf.
      rewrite universal_newlines_other in IH by done.
      intros Hin. destruct (IH Hin) as [?|?]; [by left|].
      right. by apply list_elem_of_further.
    + rewrite universal_newlines_cr by done.
      intros [->|Hin]%elem_of_cons; [by left|].
      destruct (IH Hin) as [?|?]; [by left|].
      right. by apply list_elem_of_further.
  - rewrite universal_newlines_other by done.
    intros [->|Hin]%elem_of_cons; [right; apply list_elem_of_here|].
    destruct (IH Hin) as [?|?]; [by left|].
    right. by apply list_elem_of_further.
Qed.

(** What is read from a state file that holds text is text. *)
Lemma load_last_id_text content s :
  is_text content = true →
  result (load_last_id (Some content)) = Val (Some s) →
  is_text s = true.
Proof.
  rewrite load_last_id_eq. cbn [result]. simpl.
  rewrite !is_text_Forall, !Forall_forall. intros Htext Hs c Hin.
  destruct (strip (universal_newlines content)) as [|c0 t] eqn:E; [done|].
  injection Hs as <-. rewrite <- E in Hin.
  apply elem_of_strip, elem_of_universal_newlines in Hin as [->|Hin];
    [done|by apply Htext].
Qed.

(** A marker that was loaded from a state file that holds text survives
    being saved and loaded again. *)
Lemma load_save_load f f' s :
  (∀ content, f = Some content → is_text content = true) →
  result (load_last_id f) = Val (Some s) →
  result ((save_last_id (IStr s) ;; load_last_id) f') = Val (Some s).
Proof.
  intros Hf Hload.
  destruct (load_last_id_stripped f s Hload)
    as ((c & c' & Hh & Hc & Hl & Hc') & Hcr).
  assert (is_text s = true) as Htext.
  { destruct f as [content|]; [|by rewrite load_last_id_eq in Hload].
    apply (load_last_id_text content); [by apply Hf|done]. }
  rewrite save_then_load_eq by done. cbn [result str_of].
  rewrite universal_newlines_id by done.
  rewrite (strip_id s c c') by done.
  by destruct s.
Qed.

Lemma load_save_load_A :
  result ((save_last_id (IStr (py "A")) ;; load_last_id) None)
  = Val (Some (py "A")).
Proof.
  apply (load_save_load (Some (py " A ")) None (py "A")); [|reflexivity].
  intros content [= <-]. reflexivity.
Defined.

End store_more.

(** ** More on the notifier *)

Section notifier_more.

Local Notation print_pdf :=
  (λ p : Pdf,
     u ← getitem_url p;
     emit (Stdout (LPdf (default (py "Link") (label_fr p)) (base_url ++ u)))).

Local Notation pdf_line :=
  (λ p : Pdf, Stdout (LPdf (default (py "Link") (label_fr p))
                        (base_url ++ default [] (url p)))).

Lemma for_cons {A} (x : A) xs body :
  for_ (x :: xs) body = (body x ;; for_ xs body).
Proof. done. Qed.

Lemma bind_emit {B} e (k : unit → M B) f :
  (emit e ≫= k) f
  = Outcome (result (k tt f)) (e :: trace (k tt f)) (file (k tt f)).
Proof. done. Qed.

Lemma send_desktop_notification_eq env title message f :
  send_desktop_notification env title message f
  = Outcome (Val tt) (desktop_events env title message) f.
Proof.
  unfold send_desktop_notification, subprocess_run_notify_send,
    desktop_events, try_except.
  rewrite bind_emit. by destruct (notify_send_error env).
Qed.

Lemma send_telegram_notification_eq env message f :
  send_telegram_notification env message f
  = Outcome (Val tt) (telegram_events env message) f.
Proof.
  unfold send_telegram_notification, telegram_events, telegram_unconfigured,
    requests_post, try_except.
  destruct (_ || _); [done|].
  unfold mbind, M_bind, emit. simpl. by destruct (post_error env).
Qed.

Lemma for_pdfs_ok pdfs f :
  Forall (λ p, is_Some (url p)) pdfs →
  for_ pdfs print_pdf f = Outcome (Val tt) (pdf_line <$> pdfs) f.
Proof.
  induction 1 as [|p pdfs [u Hu] _ IH]; [done|]. rewrite for_cons.
  assert (print_pdf p f
          = Outcome (Val tt) [pdf_line p] f) as Hp.
  { unfold getitem_url. by rewrite Hu. }
  rewrite (bind_val _ _ _ _ _ _ Hp). cbv beta. rewrite IH. done.
Qed.

Lemma for_pdfs_raises pdfs f :
  ¬ Forall (λ p, is_Some (url p)) pdfs →
  ∃ es, for_ pdfs print_pdf f = Outcome (Exc (KeyError (py "url"))) es f
        ∧ Forall is_stdout es.
Proof.
  induction pdfs as [|p pdfs IH]; intros Hnot.
  { destruct Hnot. constructor. }
  rewrite for_cons. destruct (url p) as [u|] eqn:Hu.
  - destruct IH as (es & Heq & Hes).
    { intros Hall. apply Hnot. constructor; [by eexists|done]. }
    assert (print_pdf p f = Outcome (Val tt) [pdf_line p] f) as Hp.
    { unfold getitem_url. by rewrite Hu. }
    rewrite (bind_val _ _ _ _ _ _ Hp). cbv beta. rewrite Heq.
    eexists. split; [done|]. by constructor.
  - assert (print_pdf p f = Outcome (Exc (KeyError (py "url"))) [] f) as Hp.
    { unfold getitem_url. by rewrite Hu. }
    rewrite (bind_exc _ _ _ _ _ _ Hp). eexists. split; [done|constructor].
Qed.

Lemma print_item_ok a f :
  has_urls a → print_item a f = Outcome (Val tt) (item_lines a) f.
Proof.
  unfold has_urls, print_item, item_lines. intros Hurls.
  rewrite !bind_emit.
  destruct (default [] (pdf a)) as [|p pdfs]; [done|].
  rewrite (bind_val _ _ f tt (Stdout LPdfHeader :: (pdf_line <$> p :: pdfs)) f).
  - cbn [result trace file]. rewrite <- !app_comm_cons. done.
  - rewrite bind_emit. by rewrite (for_pdfs_ok _ _ Hurls).
Qed.

Lemma print_item_raises a f :
  ¬ has_urls a →
  ∃ es, print_item a f = Outcome (Exc (KeyError (py "url"))) es f
        ∧ Forall is_stdout es.
Proof.
  unfold has_urls, print_item. intros Hnot.
  rewrite !bind_emit.
  destruct (default [] (pdf a)) as [|p pdfs].
  { destruct Hnot. constructor. }
  destruct (for_pdfs_raises _ f Hnot) as (es & Heq & Hes).
  rewrite (bind_exc _ _ f (KeyError (py "url")) (Stdout LPdfHeader :: es) f).
  - eexists. split; [done|]. by repeat constructor.
  - rewrite bind_emit. by rewrite Heq.
Qed.

Lemma item_lines_stdout a : Forall is_stdout (item_lines a).
Proof.
  unfold item_lines. repeat (constructor; [done|]).
  apply Forall_app. split; [|by repeat constructor].
  destruct (default [] (pdf a)) as [|p pdfs]; [constructor|].
  constructor; [done|]. apply Forall_fmap, Forall_true. done.
Qed.

Lemma for_items_ok items f :
  Forall has_urls items →
  for_ items print_item f = Outcome (Val tt) (items ≫= item_lines) f.
Proof.
  induction 1 as [|a items Ha _ IH]; [done|]. rewrite for_cons.
  rewrite (bind_val _ _ _ _ _ _ (print_item_ok a f Ha)). cbv beta.
  rewrite IH. done.
Qed.

Lemma for_items_raises items f :
  ¬ Forall has_urls items →
  ∃ es, for_ items print_item f = Outcome (Exc (KeyError (py "url"))) es f
        ∧ Forall is_stdout es.
Proof.
  induction items as [|a items IH]; intros Hnot.
  { destruct Hnot. constructor. }
  rewrite for_cons. destruct (decide (has_urls a)) as [Ha|Ha].
  - destruct IH as (es & Heq & Hes).
    { intros Hall. apply Hnot. by constructor. }
    rewrite (bind_val _ _ _ _ _ _ (print_item_ok a f Ha)). cbv beta.
    rewrite Heq.
    eexists. split; [done|].
    apply Forall_app. split; [apply item_lines_stdout|done].
  - destruct (print_item_raises a f Ha) as (es & Heq & Hes).
    rewrite (bind_exc _ _ _ _ _ _ Heq). by eexists.
Qed.

(** The chat message is the header followed by the blocks of the entries,
    oldest of the new entries first. *)
Lemma telegram_message_blocks new_items :
  telegram_message new_items
  = telegram_header (length new_items) ++ (reverse new_items ≫= telegram_block).
Proof.
  unfold telegram_message.
  generalize (telegram_header (length new_items)).
  induction (reverse new_items) as [|a items IH]; intros header; simpl.
  - by rewrite (right_id [] (++)).
  - rewrite IH. by rewrite <- (assoc (++)).
Qed.

Lemma notify_new_announcements_eq env newest rest f :
  Forall has_urls (newest :: rest) →
  notify_new_announcements env (newest :: rest) f
  = Outcome (Val tt) (notify_events env (newest :: rest)) f.
Proof.
  intros Hurls. unfold notify_new_announcements, notify_events, banner_lines.
  rewrite !bind_emit.
  assert (Forall has_urls (reverse (newest :: rest))) as Hrev
    by (by apply Forall_reverse).
  rewrite (bind_val _ _ _ _ _ _ (for_items_ok _ f Hrev)). cbv beta.
  rewrite (bind_val _ _ _ _ _ _ (send_desktop_notification_eq env _ _ f)).
  cbv beta. rewrite send_telegram_notification_eq. done.
Qed.

Lemma notify_new_announcements_key_error env newest rest f :
  ¬ Forall has_urls (newest :: rest) →
  ∃ es,
    notify_new_announcements env (newest :: rest) f
    = Outcome (Exc (KeyError (py "url"))) (banner_lines (S (length rest)) ++ es) f
    ∧ Forall is_stdout es.
Proof.
  intros Hnot. unfold notify_new_announcements. rewrite !bind_emit.
  destruct (for_items_raises (reverse (newest :: rest)) f) as (es & Heq & Hes).
  { by rewrite Forall_reverse. }
  rewrite (bind_exc _ _ _ _ _ _ Heq). by exists es.
Qed.





(** The Telegram sink never raises.  With a placeholder left in the
    configuration it posts nothing and prints a warning; otherwise it posts
    once, with the configured token and chat id and the message as it is,
    and reports the success or the failure of the post. *)
Lemma send_telegram_notification_outcome env message f :
  send_telegram_notification env message f
  = Outcome (Val tt)
      (if telegram_unconfigured env then [Stdout LTelegramMissing]
       else [TelegramPost (TELEGRAM_BOT_TOKEN env) (TELEGRAM_CHAT_ID env) message;
             match post_error env with
             | Some r => Stderr (LTelegramFailed (RequestException r))
             | None => Stdout LTelegramSent
             end])
      f.
Proof.
  rewrite send_telegram_notification_eq. unfold telegram_events.
  destruct (telegram_unconfigured env); [done|]. by destruct (post_error env).
Qed.

(** The desktop sink never raises: it calls notify-send once and, when the
    call raises, prints a warning with the exception. *)
Lemma send_desktop_notification_outcome env title message f :
  send_desktop_notification env title message f
  = Outcome (Val tt)
      (NotifySend title message
       :: match notify_send_error env with
          | Some e => [Stderr (LNotifySendError e)]
          | None => []
          end)
      f.
Proof. apply send_desktop_notification_eq. Qed.

End notifier_more.

(** ** More on the cycle *)

Section cycle_more.

Implicit Types (announcements : list Announcement) (last_seen : Ident).

Lemma find_new_items_cases announcements last_seen f :
  ∃ new_items es,
    find_new_items announcements last_seen f = Outcome (Val new_items) es f
    ∧ new_items `prefix_of` announcements
    ∧ Forall (λ b, id b ≠ last_seen) new_items
    ∧ ((es = [] ∧ ∃ a, announcements !! length new_items = Some a
                       ∧ id a = last_seen)
       ∨ (es = [Stderr (LStale last_seen)] ∧ new_items = announcements)).
Proof.
  destruct (list_find (λ a, id a = last_seen) announcements)
    as [[k a]|] eqn:Hfind.
  - rewrite (find_new_items_found _ _ _ _ f Hfind).
    apply list_find_Some in Hfind as (Hk & Ha & Hfirst).
    exists (take k announcements), []. split_and!; [done|apply prefix_take| |].
    + apply Forall_lookup. intros j b Hb.
      apply lookup_take_Some in Hb as [Hb Hj]. by apply (Hfirst j).
    + left. split; [done|]. exists a. split; [|done].
      apply lookup_lt_Some in Hk as Hlt.
      by rewrite length_take, Nat.min_l by lia.
  - rewrite (find_new_items_stale _ _ f Hfind).
    apply list_find_None in Hfind.
    exists announcements, [Stderr (LStale last_seen)].
    split_and!; [done|done|done|by right].
Qed.

(** The outcome of the tail of [check_once] after a scan, by whether the
    entries to report are well formed. *)
Lemma check_once_changed env announcements latest_id last_seen f :
  fetch_response env = inr announcements →
  get_latest_id announcements = Some latest_id →
  latest_id ≠ last_seen →
  ∃ new_items es,
    find_new_items announcements last_seen f = Outcome (Val new_items) es f
    ∧ new_items ≠ []
    ∧ ((¬ Forall has_urls new_items
        ∧ ∃ tn, check_once env (Some last_seen) f
                = Outcome (Exc (KeyError (py "url"))) (es ++ tn) f
                ∧ Forall is_stdout tn)
       ∨ (Forall has_urls new_items
          ∧ check_once env (Some last_seen) f
            = if is_text (str_of latest_id)
              then Outcome (Val (Some latest_id))
                     (es ++ notify_events env new_items
                      ++ [WriteState (str_of latest_id);
                          Stdout (LUpdated last_seen latest_id)])
                     (Some (str_of latest_id))
              else Outcome (Exc UnicodeEncodeError)
                     (es ++ notify_events env new_items
                      ++ [WriteState (str_of latest_id)])
                     (Some []))).
Proof.
  intros Hfetch Hl Hne.
  destruct (check_once_scan _ _ _ _ f Hfetch Hl Hne)
    as (a & new & es & Hs & _ & ->).
  exists (a :: new), es. split_and!; [done..|]. cbv zeta.
  destruct (decide (Forall has_urls (a :: new))) as [Hurls|Hnot].
  - right. split; [done|].
    rewrite (bind_val _ _ _ _ _ _ (notify_new_announcements_eq env a new f Hurls)).
    cbv beta. rewrite save_and_report.
    destruct (is_text (str_of latest_id)); reflexivity.
  - left. split; [done|].
    destruct (notify_new_announcements_key_error env a new f Hnot)
      as (tn & Heq & Htn).
    rewrite (bind_exc _ _ _ _ _ _ Heq). cbn [result trace file].
    eexists. split; [done|].
    apply Forall_app. split; [by repeat constructor|done].
Qed.

Lemma desktop_events_shape env title message :
  Forall (λ e, ¬ is_write e) (desktop_events env title message).
Proof.
  unfold desktop_events. destruct (notify_send_error env);
    repeat constructor; by intros [].
Qed.

Lemma telegram_events_shape env message :
  Forall (λ e, ¬ is_write e) (telegram_events env message).
Proof.
  unfold telegram_events.
  destruct (telegram_unconfigured env); [repeat constructor; by intros []|].
  destruct (post_error env); repeat constructor; by intros [].
Qed.


(** Every outcome of a cycle, by the branch of [check_once] taken. *)
Lemma check_once_outcomes env last_seen_id f :
  (∃ e, fetch_response env = inl e
        ∧ check_once env last_seen_id f
          = Outcome (Val last_seen_id) [Stderr (LError e)] f)
  ∨ (fetch_response env = inr []
     ∧ check_once env last_seen_id f
       = Outcome (Val last_seen_id) [Stdout LNoResults] f)
  ∨ (∃ a rest,
       fetch_response env = inr (a :: rest)
       ∧ last_seen_id = None
       ∧ check_once env last_seen_id f
         = if is_text (str_of (id a))
           then Outcome (Val (Some (id a)))
                  [WriteState (str_of (id a)); Stdout (LInit (id a))]
                  (Some (str_of (id a)))
           else Outcome (Exc UnicodeEncodeError) [WriteState (str_of (id a))]
                  (Some []))
  ∨ (∃ a rest,
       fetch_response env = inr (a :: rest)
       ∧ last_seen_id = Some (id a)
       ∧ check_once env last_seen_id f
         = Outcome (Val last_seen_id) [Stdout LNoNew] f)
  ∨ (∃ a rest last_seen new_items es,
       fetch_response env = inr (a :: rest)
       ∧ last_seen_id = Some last_seen
       ∧ id a ≠ last_seen
       ∧ find_new_items (a :: rest) last_seen f
         = Outcome (Val new_items) es f
       ∧ new_items ≠ []
       ∧ new_items `prefix_of` (a :: rest)
       ∧ (es = [] ∨ es = [Stderr (LStale last_seen)])
       ∧ ((¬ Forall has_urls new_items
           ∧ ∃ tn, check_once env last_seen_id f
                   = Outcome (Exc (KeyError (py "url"))) (es ++ tn) f
                   ∧ Forall is_stdout tn)
          ∨ (Forall has_urls new_items
             ∧ check_once env last_seen_id f
               = if is_text (str_of (id a))
                 then Outcome (Val (Some (id a)))
                        (es ++ notify_events env new_items
                         ++ [WriteState (str_of (id a));
                             Stdout (LUpdated last_seen (id a))])
                        (Some (str_of (id a)))
                 else Outcome (Exc UnicodeEncodeError)
                        (es ++ notify_events env new_items
                         ++ [WriteState (str_of (id a))])
                        (Some [])))).
Proof.
  destruct (fetch_response env) as [e|announcements] eqn:Hfetch.
  { left. exists e. split; [done|]. by apply check_once_fetch_failed. }
  right. destruct announcements as [|a0 rest].
  { left. split; [done|]. by apply check_once_no_results. }
  right. destruct last_seen_id as [last_seen|].
  2:{ left. exists a0, rest. split_and!; [done..|].
      by apply (check_once_init _ (a0 :: rest)). }
  right. destruct (decide (id a0 = last_seen)) as [<-|Hne].
  { left. exists a0, rest. split_and!; [done..|].
    by apply (check_once_no_new _ (a0 :: rest)). }
  right.
  destruct (check_once_changed _ _ _ _ f Hfetch eq_refl Hne)
    as (new_items & es & Hs & Hnew & Hcases).
  destruct (find_new_items_cases (a0 :: rest) last_seen f)
    as (new_items' & es' & Hs' & Hpre & _ & Hes).
  rewrite Hs in Hs'. injection Hs' as <- <-.
  exists a0, rest, last_seen, new_items, es.
  split_and!; [done..| |done].
  destruct Hes as [[-> _]|[-> _]]; [by left|by right].
Qed.

Lemma notify_events_shape env new_items :
  Forall (λ e, ¬ is_write e) (notify_events env new_items).
Proof.
  unfold notify_events, banner_lines. rewrite !Forall_app. split_and!.
  - repeat constructor; by intros [].
  - apply Forall_bind, Forall_true. intros a.
    eapply Forall_impl; [apply item_lines_stdout|]. by intros [] ? [].
  - apply desktop_events_shape.
  - apply telegram_events_shape.
Qed.


(** The marker and the state file after one cycle that returned: both as
    they were, or both the newest id. *)
Lemma check_once_in_step env last_seen_id f m :
  result (check_once env last_seen_id f) = Val m →
  (m = last_seen_id ∧ file (check_once env last_seen_id f) = f)
  ∨ ∃ latest_id,
      m = Some latest_id
      ∧ file (check_once env last_seen_id f) = Some (str_of latest_id).
Proof.
  destruct (check_once_outcomes env last_seen_id f)
    as [(e & _ & ->)|[[_ ->]|[(a & rest & _ & _ & ->)
       |[(a & rest & _ & _ & ->)
       |(a & rest & ls & new & es & _ & _ & _ & _ & _ & _ & _ & Hc)]]]].
  - intros [= <-]. by left.
  - intros [= <-]. by left.
  - destruct (is_text (str_of (id a))); [|done].
    intros [= <-]. right. by exists (id a).
  - intros [= <-]. by left.
  - destruct Hc as [(_ & tn & -> & _)|(_ & ->)]; [done|].
    destruct (is_text (str_of (id a))); [|done].
    intros [= <-]. right. by exists (id a).
Qed.

(** The scan never raises and leaves the state file alone.  What it
    reports as new is a prefix of the feed in which no entry carries the
    marker's id: either the entries before an entry that carries it, with
    no warning, or the whole feed after one stale-marker warning. *)
Lemma find_new_items_reports announcements last_seen f :
  ∃ new_items es,
    find_new_items announcements last_seen f = Outcome (Val new_items) es f
    ∧ new_items `prefix_of` announcements
    ∧ Forall (λ b, id b ≠ last_seen) new_items
    ∧ ((es = [] ∧ ∃ a, announcements !! length new_items = Some a
                       ∧ id a = last_seen)
       ∨ (es = [Stderr (LStale last_seen)] ∧ new_items = announcements)).
Proof. apply find_new_items_cases. Qed.







End cycle_more.

(** ** The loop and the start of the process *)

Section loop.

Implicit Types (announcements : list Announcement) (envs : list Env).

(** After any number of cycles that returned, the marker and the state file
    are both as they were at the start, or the state file holds the text of
    the marker: the marker in memory never runs ahead of the file. *)
Lemma cycles_in_step envs last_seen_id f m :
  result (cycles envs last_seen_id f) = Val m →
  (m = last_seen_id ∧ file (cycles envs last_seen_id f) = f)
  ∨ ∃ latest_id,
      m = Some latest_id
      ∧ file (cycles envs last_seen_id f) = Some (str_of latest_id).
Proof.
  revert last_seen_id f. induction envs as [|env envs IH]; intros m0 f.
  { intros [= <-]. by left. }
  change (cycles (env :: envs) m0 f)
    with ((check_once env m0 ≫= cycles envs) f).
  destruct (check_once env m0 f) as [[m1|e] es f1] eqn:Hstep.
  - rewrite (bind_val _ _ _ _ _ _ Hstep). cbn [result file]. intros Hres.
    pose proof (check_once_in_step env m0 f m1) as Hone.
    rewrite Hstep in Hone. cbn [result file] in Hone.
    destruct (IH m1 f1 Hres) as [[-> ->]|(l & -> & ->)].
    + by apply Hone.
    + right. by exists l.
  - rewrite (bind_exc _ _ _ _ _ _ Hstep). done.
Qed.

Lemma cycles_in_step_BA :
  let env := env_with (inr [entry "B"; entry "A"]) in
  (Some (IStr (py "B")) = Some (IStr (py "A"))
   ∧ file (cycles [env; env] (Some (IStr (py "A"))) (Some (py "A")))
     = Some (py "A"))
  ∨ ∃ latest_id,
      Some (IStr (py "B")) = Some latest_id
      ∧ file (cycles [env; env] (Some (IStr (py "A"))) (Some (py "A")))
        = Some (str_of latest_id).
Proof.
  intros env.
  apply (cycles_in_step [env; env] (Some (IStr (py "A"))) (Some (py "A"))
           (Some (IStr (py "B")))).
  reflexivity.
Defined.

(** While every fetch fails, the loop goes on: it returns the marker it was
    started with, leaves the state file alone and emits one error line per
    cycle and nothing else. *)
Lemma cycles_all_fetches_fail envs last_seen_id f :
  all_fetches_fail envs →
  cycles envs last_seen_id f
  = Outcome (Val last_seen_id) (fetch_error_lines envs) f.
Proof.
  unfold all_fetches_fail, fetch_error_lines.
  induction 1 as [|env envs [e He] _ IH]; [done|].
  change (cycles (env :: envs) last_seen_id f)
    with ((check_once env last_seen_id ≫= cycles envs) f).
  rewrite (bind_val _ _ _ _ _ _ (check_once_fetch_failed _ _ _ f He)).
  cbv beta. rewrite IH. cbn [result trace file].
  rewrite bind_cons. by rewrite He.
Qed.

Lemma cycles_all_fetches_fail_twice :
  let down := env_with (inl (RequestException ConnectionError)) in
  cycles [down; down] (Some (IStr (py "A"))) (Some (py "A"))
  = Outcome (Val (Some (IStr (py "A")))) (fetch_error_lines [down; down])
      (Some (py "A")).
Proof.
  intros down.
  apply (cycles_all_fetches_fail [down; down] (Some (IStr (py "A")))
           (Some (py "A"))).
  repeat constructor; by eexists.
Defined.



(** A process started on the state file that a cycle wrote for a string id
    finds that marker again: when the id begins and ends with a character
    that is not whitespace, holds no carriage return and is still the
    newest of the feed, the first cycle reports nothing new. *)
Lemma first_cycle_unchanged_feed env announcements (s : str) c c' :
  fetch_response env = inr announcements →
  get_latest_id announcements = Some (IStr s) →
  head s = Some c → is_space c = false →
  last s = Some c' → is_space c' = false →
  13 ∉ s →
  first_cycle env (Some (str_of (IStr s)))
  = Outcome (Val (Some (IStr s))) [Stdout LNoNew] (Some s).
Proof.
  intros Hfetch Hl Hh Hc Hla Hc' Hcr. unfold first_cycle.
  assert (load_last_id (Some s) = Outcome (Val (Some s)) [] (Some s)) as Hload.
  { rewrite load_last_id_eq. simpl.
    rewrite universal_newlines_id by done.
    rewrite (strip_id s c c') by done. by destruct s. }
  simpl str_of. rewrite (bind_val _ _ _ _ _ _ Hload). cbv beta.
  by rewrite (check_once_no_new _ _ _ _ Hfetch Hl).
Qed.

Lemma first_cycle_unchanged_feed_B :
  first_cycle (env_with (inr [entry "B"; entry "A"])) (Some (py "B"))
  = Outcome (Val (Some (IStr (py "B")))) [Stdout LNoNew] (Some (py "B")).
Proof.
  apply (first_cycle_unchanged_feed (env_with (inr [entry "B"; entry "A"]))
           [entry "B"; entry "A"] (py "B") 66 66);
    [reflexivity..|].
  intros Hin%list_elem_of_singleton. discriminate.
Defined.



End loop.
